(** * RouletteWheel: a shallow embedding of [RouletteWheel.hpp] and
    [classes/WheelRegion.hpp].

    The weight type [W] is modelled by its integral instantiation, as [Z]
    (the examples instantiate it with [int]; the integral branch of
    [generateRandomWeight] is the one taken).  Weights are mathematical
    integers: the source never guards against overflow, and signed overflow
    has no defined result in C++.  The properties proved over this model are
    properties of integral weight types.  The instantiation [W = double], used
    by the tests and examples too, is embedded separately below (module
    [Binary64Wheel]) for the members whose behaviour on a NaN weight
    differs.

    The element type [E] is any type with a decidable equality (the source's
    [operator==]).  The random engine ([std::mt19937]) and the standard
    distribution [std::uniform_int_distribution] are library code, not code of
    this repository: they are section variables, [uniform_int a b g] being the
    draw of [std::uniform_int_distribution<W>(a, b)] on engine state [g]
    (returning the value and the advanced engine), and [mt_seed s] the engine
    state set by [m_randomEngine.seed(s)].

    Member functions become functions in a small state-and-exception monad
    over the wheel object: a C++ exception leaves the object in the state it
    had when the exception was thrown. *)

From Stdlib Require Import String List ZArith Lia Bool Permutation.
From Stdlib Require Import SpecFloat.
Import ListNotations.
Open Scope Z_scope.

(** Exceptions thrown by the wheel: [std::runtime_error] from [select] on an
    empty wheel, [std::invalid_argument] from [addRegion]. *)
Inductive WheelError : Type :=
| EmptyWheel
| InvalidWeight.

Section RouletteWheel.

Context {E : Type} (E_eq_dec : forall x y : E, {x = y} + {x <> y}).
Context {Rng : Type} (uniform_int : Z -> Z -> Rng -> Z * Rng) (mt_seed : Z -> Rng).

(** ** [WheelRegion<E, W>] *)
Record WheelRegion : Type := mkRegion {
  getElement : E;
  getWeight : Z
}.

(** [setWeight] *)
Definition setWeight (r : WheelRegion) (weight : Z) : WheelRegion :=
  mkRegion (getElement r) weight.

(** ** [RouletteWheel<E, W>]: the members [m_regions] and [m_randomEngine]. *)
Record RouletteWheel : Type := mkWheel {
  m_regions : list WheelRegion;
  m_randomEngine : Rng
}.

(** The state-and-exception monad of member functions. *)
Definition M (A : Type) : Type :=
  RouletteWheel -> (WheelError + A) * RouletteWheel.

Definition ret {A} (a : A) : M A := fun w => (inr a, w).
Definition throw {A} (err : WheelError) : M A := fun w => (inl err, w).
Definition bind {A B} (m : M A) (f : A -> M B) : M B :=
  fun w => match m w with
           | (inl err, w') => (inl err, w')
           | (inr a, w') => f a w'
           end.
Definition get : M RouletteWheel := fun w => (inr w, w).
Definition put (w : RouletteWheel) : M unit := fun _ => (inr tt, w).

Local Notation "x <- m ;; k" := (bind m (fun x => k))
  (at level 61, m at next level, right associativity).
Local Notation "m ;;; k" := (bind m (fun _ => k))
  (at level 61, right associativity).

(** Updating the region vector only. *)
Definition setRegions (w : RouletteWheel) (rs : list WheelRegion) : RouletteWheel :=
  mkWheel rs (m_randomEngine w).

(** *** Vector operations used by the source. *)

(** [v.erase(v.begin() + i)] *)
Definition erase_at {A} (i : nat) (l : list A) : list A :=
  firstn i l ++ skipn (S i) l.

(** [v[i] = f(v[i])]; out of range the list is unchanged (never reached:
    every index comes from [findElementIndex]). *)
Fixpoint update_at {A} (i : nat) (f : A -> A) (l : list A) : list A :=
  match l, i with
  | [], _ => []
  | x :: l', O => f x :: l'
  | x :: l', S i' => x :: update_at i' f l'
  end.

(** [v.back()] on a non-empty vector; [None] on the empty vector, where the
    source has undefined behaviour (never reached). *)
Fixpoint back {A} (l : list A) : option A :=
  match l with
  | [] => None
  | [x] => Some x
  | _ :: l' => back l'
  end.

(** *** Private helpers. *)

(** [calculateTotalWeight] *)
Definition calculateTotalWeight (rs : list WheelRegion) : Z :=
  fold_left (fun totalWeight region => totalWeight + getWeight region) rs 0.

(** [generateRandomWeight], integral branch:
    [std::uniform_int_distribution<W>(0, maxWeight - 1)(m_randomEngine)]. *)
Definition generateRandomWeight (maxWeight : Z) (g : Rng) : Z * Rng :=
  uniform_int 0 (maxWeight - 1) g.

(** The loop of [selectElementByWeight]: [accumulatedWeight] is the
    accumulator. *)
Fixpoint selectLoop (accumulatedWeight : Z) (rs : list WheelRegion)
    (randomValue : Z) : option E :=
  match rs with
  | [] => None
  | region :: rs' =>
      let accumulatedWeight' := accumulatedWeight + getWeight region in
      if randomValue <? accumulatedWeight' then Some (getElement region)
      else selectLoop accumulatedWeight' rs' randomValue
  end.

(** [selectElementByWeight]: the loop, then the fallback to
    [m_regions.back().getElement()]. *)
Definition selectElementByWeight (rs : list WheelRegion) (randomValue : Z)
    : option E :=
  match selectLoop 0 rs randomValue with
  | Some e => Some e
  | None => option_map getElement (back rs)
  end.

(** [findElementIndex] *)
Fixpoint findElementIndexFrom (i : nat) (element : E) (rs : list WheelRegion)
    : option nat :=
  match rs with
  | [] => None
  | region :: rs' =>
      if E_eq_dec (getElement region) element then Some i
      else findElementIndexFrom (S i) element rs'
  end.

Definition findElementIndex (element : E) (rs : list WheelRegion) : option nat :=
  findElementIndexFrom O element rs.

(** [findElementWeight] *)
Definition findElementWeight (element : E) (rs : list WheelRegion) : option Z :=
  match findElementIndex element rs with
  | None => None
  | Some i => option_map getWeight (nth_error rs i)
  end.

(** [combineWeightAtIndex] *)
Definition combineWeightAtIndex (index : nat) (additionalWeight : Z)
    (rs : list WheelRegion) : list WheelRegion :=
  update_at index
    (fun region => setWeight region (getWeight region + additionalWeight)) rs.

(** [modifyElementWeight] *)
Definition modifyElementWeight (element : E) (weightDelta : Z)
    (rs : list WheelRegion) : list WheelRegion :=
  match findElementIndex element rs with
  | None => rs
  | Some i =>
      match nth_error rs i with
      | None => rs
      | Some region =>
          let newWeight := getWeight region + weightDelta in
          if newWeight <=? 0 then erase_at i rs
          else update_at i (fun r => setWeight r newWeight) rs
      end
  end.

(** ** Public member functions. *)

(** [select] *)
Definition select : M E :=
  fun w =>
    match m_regions w with
    | [] => (inl EmptyWheel, w)
    | [region] => (inr (getElement region), w)
    | rs =>
        let totalWeight := calculateTotalWeight rs in
        let (randomValue, g') := generateRandomWeight totalWeight (m_randomEngine w) in
        let w' := mkWheel rs g' in
        match selectElementByWeight rs randomValue with
        | Some e => (inr e, w')
        | None => (inl EmptyWheel, w') (* unreachable: [rs] is not empty *)
        end
    end.

(** [selectSafe] *)
Definition selectSafe : M (option E) :=
  fun w =>
    match m_regions w with
    | [] => (inr None, w)
    | _ => bind select (fun e => ret (Some e)) w
    end.

(** [addRegion] *)
Definition addRegion (element : E) (weight : Z) : M unit :=
  fun w =>
    if weight <=? 0 then (inl InvalidWeight, w)
    else match findElementIndex element (m_regions w) with
         | Some i => (inr tt, setRegions w (combineWeightAtIndex i weight (m_regions w)))
         | None => (inr tt, setRegions w (m_regions w ++ [mkRegion element weight]))
         end.

(** [removeElement] *)
Definition removeElement (element : E) : M bool :=
  fun w =>
    match findElementIndex element (m_regions w) with
    | None => (inr false, w)
    | Some i => (inr true, setRegions w (erase_at i (m_regions w)))
    end.

(** [removeInvalidRegions]: [erase(remove_if(..., weight <= 0))]. *)
Definition removeInvalidRegions : M nat :=
  fun w =>
    let originalSize := length (m_regions w) in
    let rs' := filter (fun region => negb (getWeight region <=? 0)) (m_regions w) in
    (inr (originalSize - length rs')%nat, setRegions w rs').

(** [selectAndModifyWeight] *)
Definition selectAndModifyWeight (weightDelta : Z) : M E :=
  selectedElement <- select ;;
  w <- get ;;
  put (setRegions w (modifyElementWeight selectedElement weightDelta (m_regions w))) ;;;
  ret selectedElement.

(** [selectAndRemove] *)
Definition selectAndRemove : M E :=
  selectedElement <- select ;;
  removeElement selectedElement ;;;
  ret selectedElement.

(** [seedRandom] *)
Definition seedRandom (seed : Z) : M unit :=
  fun w => (inr tt, mkWheel (m_regions w) (mt_seed seed)).

(** [empty] and [size] *)
Definition empty : M bool := fun w => (inr (match m_regions w with [] => true | _ => false end), w).
Definition size : M nat := fun w => (inr (length (m_regions w)), w).

(** [n] successive calls of [select], collecting their results. *)
Fixpoint selectN (n : nat) : M (list E) :=
  match n with
  | O => ret []
  | S n' => e <- select ;; es <- selectN n' ;; ret (e :: es)
  end.

(** [n] successive calls of [selectAndRemove], collecting their results. *)
Fixpoint selectAndRemoveN (n : nat) : M (list E) :=
  match n with
  | O => ret []
  | S n' => e <- selectAndRemove ;; es <- selectAndRemoveN n' ;; ret (e :: es)
  end.

(** The loop of the constructors [RouletteWheel(const std::vector<std::tuple<E, W>>&)]
    and [RouletteWheel(const std::unordered_map<E, W>&)]: [addRegion] on each
    pair in iteration order; an exception ends the loop and the construction. *)
Fixpoint addPairs (pairs : list (E * Z)) : M unit :=
  match pairs with
  | [] => ret tt
  | (element, weight) :: pairs' => addRegion element weight ;;; addPairs pairs'
  end.

(** The constructor from element-weight pairs; [g] is the engine state seeded
    from [std::random_device]. *)
Definition fromPairs (pairs : list (E * Z)) (g : Rng) :
    (WheelError + unit) * RouletteWheel :=
  addPairs pairs (mkWheel [] g).

(** [getSelectionProbability] returns a [double]: [double_zero] is [0.0] and
    [percentage ew t] is
    [(static_cast<double>(ew) / static_cast<double>(t)) * 100.0]. *)
Context {Double : Type} (double_zero : Double) (percentage : Z -> Z -> Double).

Definition getSelectionProbability (element : E) (w : RouletteWheel) : Double :=
  match m_regions w with
  | [] => double_zero
  | rs =>
      match findElementWeight element rs with
      | None => double_zero
      | Some elementWeight =>
          let totalWeight := calculateTotalWeight rs in
          if totalWeight <=? 0 then double_zero
          else percentage elementWeight totalWeight
      end
  end.

(** ** Partial sums of the selection walk. *)

(** The running sum before region [i] (exclusive) and after it (inclusive). *)
Definition partialSumBefore (i : nat) (rs : list WheelRegion) : Z :=
  calculateTotalWeight (firstn i rs).
Definition partialSumAfter (i : nat) (rs : list WheelRegion) : Z :=
  calculateTotalWeight (firstn (S i) rs).

(** The wheel invariant: one region per element, positive weights. *)
Definition WheelInvariant (rs : list WheelRegion) : Prop :=
  NoDup (map getElement rs) /\ Forall (fun region => 0 < getWeight region) rs.

(** ** Helper lemmas *)

Lemma fold_weight_acc (rs : list WheelRegion) (acc : Z) :
  fold_left (fun t region => t + getWeight region) rs acc =
  acc + calculateTotalWeight rs.
Proof.
  unfold calculateTotalWeight. revert acc.
  induction rs as [|r rs IH]; intro acc; simpl; [lia|].
  rewrite (IH (acc + getWeight r)), (IH (getWeight r)). lia.
Qed.

Lemma calculateTotalWeight_nil : calculateTotalWeight [] = 0.
Proof. reflexivity. Qed.

Lemma calculateTotalWeight_cons (r : WheelRegion) (rs : list WheelRegion) :
  calculateTotalWeight (r :: rs) = getWeight r + calculateTotalWeight rs.
Proof.
  unfold calculateTotalWeight at 1. simpl. rewrite fold_weight_acc. lia.
Qed.

Lemma partialSumAfter_0 (r : WheelRegion) (rs : list WheelRegion) :
  partialSumAfter 0 (r :: rs) = getWeight r.
Proof.
  unfold partialSumAfter. simpl. rewrite calculateTotalWeight_cons.
  rewrite calculateTotalWeight_nil. lia.
Qed.

Lemma partialSumAfter_S (i : nat) (r : WheelRegion) (rs : list WheelRegion) :
  partialSumAfter (S i) (r :: rs) = getWeight r + partialSumAfter i rs.
Proof.
  unfold partialSumAfter. simpl firstn. rewrite calculateTotalWeight_cons. reflexivity.
Qed.

Lemma partialSumBefore_0 (rs : list WheelRegion) : partialSumBefore 0 rs = 0.
Proof. reflexivity. Qed.

Lemma partialSumBefore_S (i : nat) (r : WheelRegion) (rs : list WheelRegion) :
  partialSumBefore (S i) (r :: rs) = getWeight r + partialSumBefore i rs.
Proof.
  unfold partialSumBefore. simpl firstn. rewrite calculateTotalWeight_cons. reflexivity.
Qed.

Lemma partialSumAfter_before (i : nat) (rs : list WheelRegion) (r : WheelRegion) :
  nth_error rs i = Some r ->
  partialSumAfter i rs = partialSumBefore i rs + getWeight r.
Proof.
  revert rs. induction i as [|i IH]; intros [|r0 rs] H; try discriminate.
  - injection H as ->. rewrite partialSumAfter_0, partialSumBefore_0. lia.
  - simpl in H. rewrite partialSumAfter_S, partialSumBefore_S, (IH rs H). lia.
Qed.

(** The walk stops at the first region whose inclusive running sum exceeds
    the drawn value. *)
Lemma selectLoop_first (rs : list WheelRegion) (acc R : Z) (i : nat)
    (region : WheelRegion) :
  nth_error rs i = Some region ->
  R < acc + partialSumAfter i rs ->
  (forall j, (j < i)%nat -> acc + partialSumAfter j rs <= R) ->
  selectLoop acc rs R = Some (getElement region).
Proof.
  revert rs acc. induction i as [|i IH]; intros [|r rs] acc Hnth Hlt Hbefore;
    try discriminate; simpl.
  - injection Hnth as ->. rewrite partialSumAfter_0 in Hlt.
    replace (R <? acc + getWeight region) with true by lia. reflexivity.
  - simpl in Hnth.
    assert (H0 := Hbefore O ltac:(lia)). rewrite partialSumAfter_0 in H0.
    replace (R <? acc + getWeight r) with false by lia.
    apply IH; [exact Hnth| |].
    + rewrite partialSumAfter_S in Hlt. lia.
    + intros j Hj. specialize (Hbefore (S j) ltac:(lia)).
      rewrite partialSumAfter_S in Hbefore. lia.
Qed.

(** The walk finds no region when every inclusive running sum is at most the
    drawn value. *)
Lemma selectLoop_none (rs : list WheelRegion) (acc R : Z) :
  (forall j, (j < length rs)%nat -> acc + partialSumAfter j rs <= R) ->
  selectLoop acc rs R = None.
Proof.
  revert acc. induction rs as [|r rs IH]; intros acc H; simpl; [reflexivity|].
  assert (H0 := H O ltac:(simpl; lia)). rewrite partialSumAfter_0 in H0.
  replace (R <? acc + getWeight r) with false by lia.
  apply IH. intros j Hj. specialize (H (S j) ltac:(simpl; lia)).
  rewrite partialSumAfter_S in H. lia.
Qed.

(** With non-negative weights, partial sums grow along the sequence. *)
Lemma partialSumAfter_le_before (rs : list WheelRegion) (j i : nat) :
  Forall (fun region => 0 < getWeight region) rs ->
  (j < i)%nat -> partialSumAfter j rs <= partialSumBefore i rs.
Proof.
  revert j i. induction rs as [|r rs IH]; intros j i Hpos Hji.
  - unfold partialSumAfter, partialSumBefore. rewrite !firstn_nil. lia.
  - inversion Hpos as [|? ? Hr Hrs]; subst.
    destruct i as [|i]; [lia|]. rewrite partialSumBefore_S.
    destruct j as [|j].
    + rewrite partialSumAfter_0.
      assert (0 <= partialSumBefore i rs).
      { unfold partialSumBefore. clear - Hrs. revert i.
        induction rs as [|r rs IH]; intro i.
        - rewrite firstn_nil. reflexivity.
        - inversion Hrs; subst. destruct i; simpl; [compute; discriminate|].
          rewrite calculateTotalWeight_cons. specialize (IH H2 i). lia. }
      lia.
    + rewrite partialSumAfter_S. specialize (IH j i Hrs ltac:(lia)). lia.
Qed.

(** Every drawn value in [[0, T)] lies in the half-open interval of some
    region. *)
Lemma interval_exists (rs : list WheelRegion) (R : Z) :
  0 <= R < calculateTotalWeight rs ->
  exists i, (i < length rs)%nat /\
            partialSumBefore i rs <= R < partialSumAfter i rs.
Proof.
  revert R. induction rs as [|r rs IH]; intros R HR.
  - rewrite calculateTotalWeight_nil in HR. lia.
  - rewrite calculateTotalWeight_cons in HR.
    destruct (Z_lt_le_dec R (getWeight r)) as [Hlt|Hge].
    + exists O. rewrite partialSumBefore_0, partialSumAfter_0. simpl. lia.
    + destruct (IH (R - getWeight r) ltac:(lia)) as (i & Hi & Hb & Ha).
      exists (S i). rewrite partialSumBefore_S, partialSumAfter_S. simpl. lia.
Qed.

Lemma nth_error_middle' {A} (pre post : list A) (x : A) :
  nth_error (pre ++ x :: post) (length pre) = Some x.
Proof. induction pre as [|a pre IH]; simpl; auto. Qed.

Lemma update_at_middle {A} (pre post : list A) (x : A) (f : A -> A) :
  update_at (length pre) f (pre ++ x :: post) = pre ++ f x :: post.
Proof. induction pre as [|a pre IH]; simpl; [reflexivity|now rewrite IH]. Qed.

Lemma erase_at_middle {A} (pre post : list A) (x : A) :
  erase_at (length pre) (pre ++ x :: post) = pre ++ post.
Proof.
  unfold erase_at. induction pre as [|a pre IH]; [reflexivity|].
  cbn [length app firstn].
  change (skipn (S (S (length pre))) (a :: pre ++ x :: post))
    with (skipn (S (length pre)) (pre ++ x :: post)).
  now rewrite IH.
Qed.

Lemma findElementIndexFrom_middle (k : nat) (e : E) (pre post : list WheelRegion)
    (r : WheelRegion) :
  ~ In e (map getElement pre) -> getElement r = e ->
  findElementIndexFrom k e (pre ++ r :: post) = Some (k + length pre)%nat.
Proof.
  revert k. induction pre as [|a pre IH]; intros k Hnin Hr; simpl.
  - destruct (E_eq_dec (getElement r) e); [f_equal; lia|contradiction].
  - destruct (E_eq_dec (getElement a) e) as [Ha|Ha].
    + exfalso. apply Hnin. left. exact Ha.
    + rewrite IH; [f_equal; lia| |exact Hr]. intro H. apply Hnin. right. exact H.
Qed.

Lemma findElementIndexFrom_absent (k : nat) (e : E) (l : list WheelRegion) :
  ~ In e (map getElement l) -> findElementIndexFrom k e l = None.
Proof.
  revert k. induction l as [|a l IH]; intros k Hnin; simpl; [reflexivity|].
  destruct (E_eq_dec (getElement a) e) as [Ha|Ha].
  - exfalso. apply Hnin. left. exact Ha.
  - apply IH. intro H. apply Hnin. right. exact H.
Qed.

(** A present element has a first region. *)
Lemma in_first_region (e : E) (l : list WheelRegion) :
  In e (map getElement l) ->
  exists pre r post, l = pre ++ r :: post /\ getElement r = e /\
                     ~ In e (map getElement pre).
Proof.
  induction l as [|a l IH]; simpl; intros Hin; [contradiction|].
  destruct (E_eq_dec (getElement a) e) as [Ha|Ha].
  - exists [], a, l. simpl. auto.
  - destruct Hin as [Hin|Hin]; [contradiction|].
    destruct (IH Hin) as (pre & r & post & -> & Hr & Hnin).
    exists (a :: pre), r, post. simpl. split; [reflexivity|split; [exact Hr|]].
    intros [H|H]; contradiction.
Qed.

Lemma selectLoop_in (acc R : Z) (rs : list WheelRegion) (e : E) :
  selectLoop acc rs R = Some e -> In e (map getElement rs).
Proof.
  revert acc. induction rs as [|r rs IH]; intros acc H; simpl in *; [discriminate|].
  destruct (R <? acc + getWeight r).
  - injection H as <-. left. reflexivity.
  - right. exact (IH _ H).
Qed.

Lemma back_in {A} (l : list A) (x : A) : back l = Some x -> In x l.
Proof.
  induction l as [|a l IH]; simpl; [discriminate|].
  destruct l as [|b l].
  - intros H. injection H as ->. left. reflexivity.
  - intros H. right. exact (IH H).
Qed.

Lemma back_last {A} (l : list A) (a d : A) : back (a :: l) = Some (last (a :: l) d).
Proof.
  revert a. induction l as [|b l IH]; intro a; [reflexivity|].
  change (back (b :: l) = Some (last (b :: l) d)). apply IH.
Qed.

(** The walk over a non-empty sequence always yields a present element. *)
Lemma selectElementByWeight_in (r : WheelRegion) (rs : list WheelRegion) (R : Z) :
  exists e, selectElementByWeight (r :: rs) R = Some e /\
            In e (map getElement (r :: rs)).
Proof.
  unfold selectElementByWeight.
  destruct (selectLoop 0 (r :: rs) R) as [e|] eqn:Hl.
  - exists e. split; [reflexivity|]. exact (selectLoop_in _ _ _ _ Hl).
  - rewrite (back_last rs r r). simpl option_map.
    eexists; split; [reflexivity|]. apply in_map. apply back_in with (l := r :: rs).
    apply back_last.
Qed.

(** [select] on a non-empty wheel returns a present element and keeps the
    regions. *)
Lemma select_nonempty (r : WheelRegion) (rs : list WheelRegion) (g : Rng) :
  exists e w', select (mkWheel (r :: rs) g) = (inr e, w') /\
               In e (map getElement (r :: rs)) /\ m_regions w' = r :: rs.
Proof.
  unfold select. simpl m_regions. destruct rs as [|r2 rs].
  - exists (getElement r), (mkWheel [r] g). simpl. auto.
  - simpl m_randomEngine.
    destruct (generateRandomWeight (calculateTotalWeight (r :: r2 :: rs)) g)
      as [R g'].
    destruct (selectElementByWeight_in r (r2 :: rs) R) as (e & He & Hin).
    rewrite He. exists e, (mkWheel (r :: r2 :: rs) g'). auto.
Qed.

(** [select] never changes the region sequence. *)
Lemma select_regions (w : RouletteWheel) :
  m_regions (snd (select w)) = m_regions w.
Proof.
  destruct w as [[|r rs] g]; [reflexivity|].
  destruct (select_nonempty r rs g) as (e & w' & -> & _ & Hw'). exact Hw'.
Qed.

(** [modifyElementWeight] on the first region of a present element. *)
Lemma modifyElementWeight_present (e : E) (d : Z) (pre post : list WheelRegion)
    (y : Z) :
  ~ In e (map getElement pre) ->
  modifyElementWeight e d (pre ++ mkRegion e y :: post) =
    if y + d <=? 0 then pre ++ post else pre ++ mkRegion e (y + d) :: post.
Proof.
  intros Hnin. unfold modifyElementWeight, findElementIndex.
  rewrite (findElementIndexFrom_middle O e pre post (mkRegion e _) Hnin eq_refl). simpl plus.
  rewrite nth_error_middle'. simpl getWeight.
  destruct (y + d <=? 0).
  - apply erase_at_middle.
  - rewrite update_at_middle. reflexivity.
Qed.

Lemma modifyElementWeight_absent (e : E) (d : Z) (rs : list WheelRegion) :
  ~ In e (map getElement rs) -> modifyElementWeight e d rs = rs.
Proof.
  intros Hnin. unfold modifyElementWeight, findElementIndex.
  rewrite findElementIndexFrom_absent by exact Hnin. reflexivity.
Qed.

Lemma selectAndModifyWeight_unfold (d : Z) (w : RouletteWheel) :
  selectAndModifyWeight d w =
    match select w with
    | (inl err, w') => (inl err, w')
    | (inr e, w') => (inr e, setRegions w' (modifyElementWeight e d (m_regions w')))
    end.
Proof. unfold selectAndModifyWeight, bind. destruct (select w) as [[err|e] w']; reflexivity. Qed.

Lemma selectAndRemove_unfold (w : RouletteWheel) :
  selectAndRemove w =
    match select w with
    | (inl err, w') => (inl err, w')
    | (inr e, w') =>
        match removeElement e w' with
        | (inl err, w'') => (inl err, w'')
        | (inr _, w'') => (inr e, w'')
        end
    end.
Proof.
  unfold selectAndRemove, bind. destruct (select w) as [[err|e] w']; [reflexivity|].
  destruct (removeElement e w') as [[err|b] w'']; reflexivity.
Qed.

(** *** The invariant under the elementary updates. *)

Lemma invariant_erase_middle (pre post : list WheelRegion) (r : WheelRegion) :
  WheelInvariant (pre ++ r :: post) -> WheelInvariant (pre ++ post).
Proof.
  intros [Hnd Hpos]. split.
  - rewrite map_app in *. simpl in Hnd. exact (NoDup_remove_1 _ _ _ Hnd).
  - apply Forall_app in Hpos as [H1 H2]. inversion H2; subst.
    apply Forall_app. auto.
Qed.

Lemma invariant_reweight_middle (pre post : list WheelRegion) (e : E) (y z : Z) :
  WheelInvariant (pre ++ mkRegion e y :: post) -> 0 < z ->
  WheelInvariant (pre ++ mkRegion e z :: post).
Proof.
  intros [Hnd Hpos] Hz. split.
  - rewrite map_app in *. exact Hnd.
  - apply Forall_app in Hpos as [H1 H2]. inversion H2; subst.
    apply Forall_app. split; [exact H1|]. constructor; [exact Hz|assumption].
Qed.

Lemma invariant_snoc (rs : list WheelRegion) (e : E) (x : Z) :
  WheelInvariant rs -> ~ In e (map getElement rs) -> 0 < x ->
  WheelInvariant (rs ++ [mkRegion e x]).
Proof.
  intros [Hnd Hpos] Hnin Hx. split.
  - rewrite map_app. simpl. clear Hpos. induction rs as [|r rs IH]; simpl in *.
    + constructor; [intros []|constructor].
    + inversion Hnd; subst. constructor.
      * rewrite in_app_iff. intros [H|[H|[]]]; [contradiction|].
        apply Hnin. left. symmetry. exact H.
      * apply IH; [assumption|]. intro H. apply Hnin. right. exact H.
  - apply Forall_app. split; [exact Hpos|]. constructor; [exact Hx|constructor].
Qed.

Lemma invariant_filter (f : WheelRegion -> bool) (rs : list WheelRegion) :
  WheelInvariant rs -> WheelInvariant (filter f rs).
Proof.
  intros [Hnd Hpos]. split.
  - induction rs as [|r rs IH]; simpl; [constructor|].
    inversion Hnd; subst. inversion Hpos; subst.
    destruct (f r); [|auto]. simpl. constructor; [|auto].
    intro Hin. apply in_map_iff in Hin as (r' & Hr' & Hin').
    apply filter_In in Hin' as [Hin' _].
    match goal with H : ~ In _ _ |- _ => apply H end.
    rewrite <- Hr'. apply in_map. exact Hin'.
  - apply Forall_forall. intros r Hin. apply filter_In in Hin as [Hin _].
    rewrite Forall_forall in Hpos. auto.
Qed.

Lemma invariant_modifyElementWeight (e : E) (d : Z) (rs : list WheelRegion) :
  WheelInvariant rs -> WheelInvariant (modifyElementWeight e d rs).
Proof.
  intros Hinv. destruct (in_dec E_eq_dec e (map getElement rs)) as [Hin|Hnin].
  - destruct (in_first_region e rs Hin) as (pre & [e' y] & post & -> & Hr & Hnin).
    simpl in Hr. subst e'. rewrite modifyElementWeight_present by exact Hnin.
    destruct (Z.leb_spec (y + d) 0).
    + exact (invariant_erase_middle _ _ _ Hinv).
    + apply (invariant_reweight_middle _ _ _ y); [exact Hinv|lia].
  - rewrite modifyElementWeight_absent by exact Hnin. exact Hinv.
Qed.

Lemma invariant_removeElement (e : E) (w : RouletteWheel) :
  WheelInvariant (m_regions w) -> WheelInvariant (m_regions (snd (removeElement e w))).
Proof.
  intros Hinv. unfold removeElement.
  destruct (in_dec E_eq_dec e (map getElement (m_regions w))) as [Hin|Hnin].
  - destruct (in_first_region e _ Hin) as (pre & r & post & Hw & Hr & Hnin).
    unfold findElementIndex. rewrite Hw in *.
    rewrite (findElementIndexFrom_middle O e pre post r Hnin Hr). simpl.
    rewrite erase_at_middle. exact (invariant_erase_middle _ _ _ Hinv).
  - unfold findElementIndex. rewrite findElementIndexFrom_absent by exact Hnin.
    exact Hinv.
Qed.

Lemma invariant_addRegion (e : E) (x : Z) (w : RouletteWheel) :
  WheelInvariant (m_regions w) -> WheelInvariant (m_regions (snd (addRegion e x w))).
Proof.
  intros Hinv. unfold addRegion. destruct (Z.leb_spec x 0); [exact Hinv|].
  destruct (in_dec E_eq_dec e (map getElement (m_regions w))) as [Hin|Hnin].
  - destruct (in_first_region e _ Hin) as (pre & [e' y] & post & Hw & Hr & Hnin).
    simpl in Hr. subst e'. unfold findElementIndex. rewrite Hw in *.
    rewrite (findElementIndexFrom_middle O e pre post (mkRegion e _) Hnin eq_refl). simpl.
    unfold combineWeightAtIndex. rewrite update_at_middle. simpl.
    apply (invariant_reweight_middle _ _ _ y _ Hinv).
    destruct Hinv as [_ Hpos]. apply Forall_app in Hpos as [_ Hpos].
    inversion Hpos as [|? ? Hy]; subst. simpl in Hy. lia.
  - unfold findElementIndex. rewrite findElementIndexFrom_absent by exact Hnin.
    simpl. apply invariant_snoc; [exact Hinv|exact Hnin|lia].
Qed.

(** *** Lookups, totals and shapes of the updates. *)

Lemma findElementIndexFrom_shift (k : nat) (e : E) (l : list WheelRegion) :
  findElementIndexFrom (S k) e l = option_map S (findElementIndexFrom k e l).
Proof.
  revert k. induction l as [|r l IH]; intro k; simpl; [reflexivity|].
  destruct (E_eq_dec (getElement r) e); [reflexivity|]. apply IH.
Qed.

Lemma findElementWeight_cons (e : E) (r : WheelRegion) (rs : list WheelRegion) :
  findElementWeight e (r :: rs) =
    if E_eq_dec (getElement r) e then Some (getWeight r) else findElementWeight e rs.
Proof.
  unfold findElementWeight, findElementIndex. simpl.
  destruct (E_eq_dec (getElement r) e); [reflexivity|].
  rewrite findElementIndexFrom_shift. destruct (findElementIndexFrom 0 e rs); reflexivity.
Qed.

(** A region of another element does not affect the lookup. *)
Lemma findElementWeight_skip (e : E) (pre post : list WheelRegion) (r : WheelRegion) :
  getElement r <> e ->
  findElementWeight e (pre ++ r :: post) = findElementWeight e (pre ++ post).
Proof.
  intros Hr. induction pre as [|a pre IH]; simpl.
  - rewrite findElementWeight_cons. destruct (E_eq_dec (getElement r) e); [contradiction|reflexivity].
  - rewrite !findElementWeight_cons, IH. reflexivity.
Qed.

Lemma findElementWeight_middle (e : E) (pre post : list WheelRegion) (y : Z) :
  ~ In e (map getElement pre) ->
  findElementWeight e (pre ++ mkRegion e y :: post) = Some y.
Proof.
  intros Hnin. induction pre as [|a pre IH]; simpl.
  - rewrite findElementWeight_cons. simpl. destruct (E_eq_dec e e); [reflexivity|contradiction].
  - rewrite findElementWeight_cons. simpl in Hnin.
    destruct (E_eq_dec (getElement a) e) as [Ha|Ha]; [exfalso; apply Hnin; left; exact Ha|].
    apply IH. intro H. apply Hnin. right. exact H.
Qed.

Lemma findElementWeight_absent (e : E) (rs : list WheelRegion) :
  ~ In e (map getElement rs) -> findElementWeight e rs = None.
Proof.
  intros Hnin. unfold findElementWeight, findElementIndex.
  rewrite findElementIndexFrom_absent by exact Hnin. reflexivity.
Qed.

Lemma calculateTotalWeight_app (l1 l2 : list WheelRegion) :
  calculateTotalWeight (l1 ++ l2) = calculateTotalWeight l1 + calculateTotalWeight l2.
Proof.
  induction l1 as [|r l1 IH]; simpl; [reflexivity|].
  rewrite !calculateTotalWeight_cons, IH. lia.
Qed.

Lemma calculateTotalWeight_pos (r : WheelRegion) (rs : list WheelRegion) :
  Forall (fun region => 0 < getWeight region) (r :: rs) ->
  0 < calculateTotalWeight (r :: rs).
Proof.
  revert r. induction rs as [|r' rs IH]; intros r Hpos; inversion Hpos; subst.
  - rewrite calculateTotalWeight_cons, calculateTotalWeight_nil. lia.
  - rewrite calculateTotalWeight_cons. specialize (IH r' ltac:(assumption)). lia.
Qed.

Lemma addRegion_present_eq (w : RouletteWheel) (e : E) (x y : Z)
    (pre post : list WheelRegion) :
  0 < x -> m_regions w = pre ++ mkRegion e y :: post -> ~ In e (map getElement pre) ->
  addRegion e x w = (inr tt, setRegions w (pre ++ mkRegion e (y + x) :: post)).
Proof.
  intros Hx Hw Hnin. unfold addRegion. replace (x <=? 0) with false by lia.
  unfold findElementIndex. rewrite Hw.
  rewrite (findElementIndexFrom_middle O e pre post (mkRegion e y) Hnin eq_refl).
  unfold combineWeightAtIndex. simpl plus. rewrite update_at_middle. reflexivity.
Qed.

Lemma addRegion_absent_eq (w : RouletteWheel) (e : E) (x : Z) :
  0 < x -> ~ In e (map getElement (m_regions w)) ->
  addRegion e x w = (inr tt, setRegions w (m_regions w ++ [mkRegion e x])).
Proof.
  intros Hx Hnin. unfold addRegion. replace (x <=? 0) with false by lia.
  unfold findElementIndex. rewrite findElementIndexFrom_absent by exact Hnin. reflexivity.
Qed.

Lemma removeElement_present_eq (w : RouletteWheel) (e : E) (r : WheelRegion)
    (pre post : list WheelRegion) :
  m_regions w = pre ++ r :: post -> getElement r = e -> ~ In e (map getElement pre) ->
  removeElement e w = (inr true, setRegions w (pre ++ post)).
Proof.
  intros Hw Hr Hnin. unfold removeElement, findElementIndex. rewrite Hw.
  rewrite (findElementIndexFrom_middle O e pre post r Hnin Hr). simpl plus.
  rewrite erase_at_middle. reflexivity.
Qed.

Lemma length_filter_split {A} (f : A -> bool) (l : list A) :
  length l = (length (filter f l) + length (filter (fun a => negb (f a)) l))%nat.
Proof.
  induction l as [|a l IH]; simpl; [reflexivity|].
  destruct (f a); simpl; lia.
Qed.

(** One [selectAndRemove] on a non-empty wheel keeping the invariant. *)
Lemma selectAndRemove_step (w : RouletteWheel) :
  WheelInvariant (m_regions w) -> m_regions w <> [] ->
  exists e w', selectAndRemove w = (inr e, w') /\
    In e (map getElement (m_regions w)) /\
    ~ In e (map getElement (m_regions w')) /\
    length (m_regions w') = pred (length (m_regions w)) /\
    Permutation (map getElement (m_regions w)) (e :: map getElement (m_regions w')) /\
    WheelInvariant (m_regions w').
Proof.
  intros Hinv Hne. destruct w as [[|r rs] g]; [contradiction|]. cbn [m_regions] in *.
  destruct (select_nonempty r rs g) as (e & w1 & Hs & Hin & Hw1).
  destruct (in_first_region e _ Hin) as (pre & r0 & post & Hrs & Hr & Hnin).
  rewrite <- Hw1 in Hrs.
  rewrite selectAndRemove_unfold, Hs, (removeElement_present_eq w1 e r0 pre post Hrs Hr Hnin).
  exists e, (setRegions w1 (pre ++ post)). unfold setRegions. cbn [m_regions].
  rewrite Hw1 in Hrs.
  split; [reflexivity|]. split; [exact Hin|]. split.
  { destruct Hinv as [Hnd _]. rewrite Hrs, map_app in Hnd. simpl in Hnd. rewrite Hr in Hnd.
    rewrite map_app. exact (NoDup_remove_2 _ _ _ Hnd). }
  split; [rewrite Hrs, !length_app; simpl; lia|]. split.
  { rewrite Hrs, !map_app. simpl. rewrite Hr. symmetry. apply Permutation_middle. }
  rewrite Hrs in Hinv.
  exact (invariant_erase_middle _ _ _ Hinv).
Qed.

Lemma calculateTotalWeight_nonneg (rs : list WheelRegion) :
  Forall (fun region => 0 < getWeight region) rs -> 0 <= calculateTotalWeight rs.
Proof.
  induction 1; [reflexivity|]. rewrite calculateTotalWeight_cons. lia.
Qed.

(** A positive [addRegion] succeeds, adds its weight to the total, keeps the
    engine and adds its element to the set of elements. *)
Lemma addRegion_positive_facts (w : RouletteWheel) (e : E) (x : Z) :
  0 < x ->
  exists w', addRegion e x w = (inr tt, w') /\
    calculateTotalWeight (m_regions w') = calculateTotalWeight (m_regions w) + x /\
    m_randomEngine w' = m_randomEngine w /\
    (forall e', In e' (map getElement (m_regions w')) <->
                In e' (map getElement (m_regions w)) \/ e' = e).
Proof using E_eq_dec.
  intros Hx. destruct (in_dec E_eq_dec e (map getElement (m_regions w))) as [Hin|Hnin].
  - destruct (in_first_region e _ Hin) as (pre & [e' y] & post & Hw & Hr & Hnin).
    simpl in Hr. subst e'. rewrite (addRegion_present_eq w e x y pre post Hx Hw Hnin).
    eexists; split; [reflexivity|]. unfold setRegions. cbn [m_regions m_randomEngine].
    rewrite Hw. split.
    { rewrite !calculateTotalWeight_app, !calculateTotalWeight_cons. simpl. lia. }
    split; [reflexivity|]. intros e'. rewrite !map_app. simpl.
    split; [intro H; left; exact H|]. intros [H | ->]; [exact H|]. apply in_or_app. right. left. reflexivity.
  - rewrite (addRegion_absent_eq w e x Hx Hnin).
    eexists; split; [reflexivity|]. unfold setRegions. cbn [m_regions m_randomEngine].
    split.
    { rewrite calculateTotalWeight_app, calculateTotalWeight_cons, calculateTotalWeight_nil.
      cbn [getWeight]. lia. }
    split; [reflexivity|]. intros e'. rewrite map_app, in_app_iff. simpl.
    split.
    + intros [H|[H|[]]]; [left; exact H|right; symmetry; exact H].
    + intros [H|H]; [left; exact H|right; left; symmetry; exact H].
Qed.

Lemma addPairs_positive (pairs : list (E * Z)) (w : RouletteWheel) :
  WheelInvariant (m_regions w) ->
  Forall (fun p => 0 < snd p) pairs ->
  exists w', addPairs pairs w = (inr tt, w') /\
    WheelInvariant (m_regions w') /\
    calculateTotalWeight (m_regions w') =
      calculateTotalWeight (m_regions w) + fold_right Z.add 0 (map snd pairs) /\
    m_randomEngine w' = m_randomEngine w /\
    (forall e, In e (map getElement (m_regions w')) <->
               In e (map getElement (m_regions w)) \/ In e (map fst pairs)).
Proof using E_eq_dec.
  revert w. induction pairs as [|[e x] pairs IH]; intros w Hinv Hpos.
  - exists w. simpl. split; [reflexivity|]. split; [exact Hinv|].
    split; [lia|]. split; [reflexivity|].
    intros e; split; [intro H; left; exact H|intros [H|[]]; exact H].
  - inversion Hpos as [|? ? Hx Hrest]; subst. simpl in Hx.
    destruct (addRegion_positive_facts w e x Hx) as (w1 & Ha & Ht & Hg & Hel).
    assert (Hinv1 : WheelInvariant (m_regions w1)).
    { pose proof (invariant_addRegion e x w Hinv) as H. rewrite Ha in H. exact H. }
    destruct (IH w1 Hinv1 Hrest) as (w' & Hp & Hinv' & Ht' & Hg' & Hel').
    exists w'. cbn [addPairs]. unfold bind. rewrite Ha, Hp.
    split; [reflexivity|]. split; [exact Hinv'|]. split; [simpl; lia|].
    split; [congruence|]. intros e'. rewrite Hel', Hel. simpl. split.
    + intros [[H|H]|H]; [left; exact H|right; left; symmetry; exact H|right; right; exact H].
    + intros [H|[H|H]]; [left; left; exact H|left; right; symmetry; exact H|right; exact H].
Qed.

Lemma addPairs_throws (pairs : list (E * Z)) (w : RouletteWheel) :
  Exists (fun p => snd p <= 0) pairs -> fst (addPairs pairs w) = inl InvalidWeight.
Proof using E_eq_dec.
  revert w. induction pairs as [|[e x] pairs IH]; intros w Hex; [inversion Hex|].
  cbn [addPairs]. unfold bind at 1.
  destruct (Z_le_gt_dec x 0) as [Hx|Hx].
  - unfold addRegion at 1. replace (x <=? 0) with true by lia. reflexivity.
  - inversion Hex as [? ? Hhd|? ? Htl]; subst; [simpl in Hhd; lia|].
    destruct (addRegion_positive_facts w e x ltac:(lia)) as (w1 & Ha & _).
    rewrite Ha. exact (IH w1 Htl).
Qed.

Lemma addPairs_distinct (pairs : list (E * Z)) (rs : list WheelRegion) (g : Rng) :
  Forall (fun p => 0 < snd p) pairs ->
  NoDup (map fst pairs) ->
  (forall e, In e (map fst pairs) -> ~ In e (map getElement rs)) ->
  addPairs pairs (mkWheel rs g) =
    (inr tt, mkWheel (rs ++ map (fun p => mkRegion (fst p) (snd p)) pairs) g).
Proof.
  revert rs. induction pairs as [|[e x] pairs IH]; intros rs Hpos Hnd Hfresh.
  - simpl. rewrite app_nil_r. reflexivity.
  - inversion Hpos as [|? ? Hx Hrest]; subst. simpl in Hx.
    inversion Hnd as [|? ? Hnin Hnd']; subst.
    cbn [addPairs]. unfold bind at 1.
    rewrite (addRegion_absent_eq (mkWheel rs g) e x Hx (Hfresh e (or_introl eq_refl))).
    unfold setRegions. cbn [m_regions m_randomEngine].
    rewrite IH; [|exact Hrest|exact Hnd'|].
    + rewrite <- app_assoc. reflexivity.
    + intros e' He'. rewrite map_app, in_app_iff. simpl. intros [H|[H|[]]].
      * exact (Hfresh e' (or_intror He') H).
      * subst. contradiction.
Qed.

(** [getSelectionProbability] on a non-empty wheel. *)
Lemma getSelectionProbability_nonempty (e : E) (w : RouletteWheel) :
  m_regions w <> [] ->
  getSelectionProbability e w =
    match findElementWeight e (m_regions w) with
    | None => double_zero
    | Some elementWeight =>
        if calculateTotalWeight (m_regions w) <=? 0 then double_zero
        else percentage elementWeight (calculateTotalWeight (m_regions w))
    end.
Proof.
  intros Hne. unfold getSelectionProbability.
  destruct (m_regions w); [contradiction|reflexivity].
Qed.

(** ** Claims *)

(** C1 (amended): the selection walk returns the element of the first region,
    in storage order, whose inclusive running sum strictly exceeds the drawn
    value [R]; when the weights are positive and [0 <= R < T], the intervals
    [[partialSum_before, partialSum_after)] (lower bound included) cover
    [[0, T)] and region [i] is selected exactly when
    [partialSum_before i <= R < partialSum_after i]. *)
Theorem selectElementByWeight_partition (rs : list WheelRegion) (R : Z)
    (Hpos : Forall (fun region => 0 < getWeight region) rs)
    (HR : 0 <= R < calculateTotalWeight rs) :
  (forall i region, nth_error rs i = Some region ->
     R < partialSumAfter i rs ->
     (forall j, (j < i)%nat -> partialSumAfter j rs <= R) ->
     selectElementByWeight rs R = Some (getElement region)) /\
  (exists i, (i < length rs)%nat /\
             partialSumBefore i rs <= R < partialSumAfter i rs) /\
  (forall i region, nth_error rs i = Some region ->
     partialSumBefore i rs <= R < partialSumAfter i rs ->
     selectElementByWeight rs R = Some (getElement region)).
Proof.
  assert (Hfirst : forall i region, nth_error rs i = Some region ->
     R < partialSumAfter i rs ->
     (forall j, (j < i)%nat -> partialSumAfter j rs <= R) ->
     selectElementByWeight rs R = Some (getElement region)).
  { intros i region Hnth Hlt Hbefore. unfold selectElementByWeight.
    rewrite (selectLoop_first rs 0 R i region Hnth); [reflexivity|lia|].
    intros j Hj. specialize (Hbefore j Hj). lia. }
  split; [exact Hfirst|split; [exact (interval_exists rs R HR)|]].
  intros i region Hnth [Hb Ha]. apply (Hfirst i region Hnth Ha).
  intros j Hj. pose proof (partialSumAfter_le_before rs j i Hpos Hj). lia.
Qed.

(** C2: [addRegion e w] with [w <= 0] throws [InvalidWeight] and leaves the
    wheel exactly as it was (regions and engine). *)
Theorem addRegion_nonpositive_unchanged (w : RouletteWheel) (e : E) (x : Z)
    (Hx : x <= 0) :
  addRegion e x w = (inl InvalidWeight, w).
Proof.
  unfold addRegion. replace (x <=? 0) with true by lia. reflexivity.
Qed.

(** C3: with a positive weight, [addRegion e w] adds [w] to the weight of the
    region of [e] when [e] is present (same position, same size) and appends
    the region [(e, w)] at the end otherwise. *)
Theorem addRegion_positive_combine_or_append (w : RouletteWheel) (e : E) (x : Z)
    (Hx : 0 < x) :
  (forall pre y post,
     m_regions w = pre ++ mkRegion e y :: post ->
     ~ In e (map getElement pre) ->
     addRegion e x w =
       (inr tt, mkWheel (pre ++ mkRegion e (y + x) :: post) (m_randomEngine w))) /\
  (~ In e (map getElement (m_regions w)) ->
     addRegion e x w =
       (inr tt, mkWheel (m_regions w ++ [mkRegion e x]) (m_randomEngine w))).
Proof.
  unfold addRegion. replace (x <=? 0) with false by lia. split.
  - intros pre y post Hw Hnin. unfold findElementIndex. rewrite Hw.
    rewrite (findElementIndexFrom_middle O e pre post (mkRegion e y) Hnin eq_refl).
    simpl plus. unfold setRegions, combineWeightAtIndex.
    rewrite update_at_middle. reflexivity.
  - intros Hnin. unfold findElementIndex.
    rewrite (findElementIndexFrom_absent O e _ Hnin). reflexivity.
Qed.

(** For integral weights, every public operation ([addRegion], [select],
    [selectSafe], [selectAndModifyWeight], [selectAndRemove], [removeElement],
    [removeInvalidRegions]) maps a wheel with one region per element and
    positive weights to a wheel with the same property, whether it returns or
    throws. *)
Theorem wheel_invariant_preserved (w : RouletteWheel)
    (Hinv : WheelInvariant (m_regions w)) :
  (forall e x, WheelInvariant (m_regions (snd (addRegion e x w)))) /\
  WheelInvariant (m_regions (snd (select w))) /\
  WheelInvariant (m_regions (snd (selectSafe w))) /\
  (forall d, WheelInvariant (m_regions (snd (selectAndModifyWeight d w)))) /\
  WheelInvariant (m_regions (snd (selectAndRemove w))) /\
  (forall e, WheelInvariant (m_regions (snd (removeElement e w)))) /\
  WheelInvariant (m_regions (snd (removeInvalidRegions w))).
Proof.
  assert (Hsel : WheelInvariant (m_regions (snd (select w)))).
  { rewrite select_regions. exact Hinv. }
  split; [intros e x; apply invariant_addRegion, Hinv|].
  split; [exact Hsel|].
  split.
  { unfold selectSafe. destruct (m_regions w) as [|r rs] eqn:Hw; [simpl; rewrite Hw; exact Hinv|].
    unfold bind. destruct (select w) as [[err|e] w'] eqn:Hs;
      exact Hsel. }
  split.
  { intros d. rewrite selectAndModifyWeight_unfold.
    destruct (select w) as [[err|e] w'] eqn:Hs; [exact Hsel|].
    apply invariant_modifyElementWeight, Hsel. }
  split.
  { rewrite selectAndRemove_unfold.
    destruct (select w) as [[err|e] w'] eqn:Hs; [exact Hsel|].
    pose proof (invariant_removeElement e w' Hsel) as Hr.
    destruct (removeElement e w') as [[err|b] w'']; exact Hr. }
  split; [intros e; apply invariant_removeElement, Hinv|].
  apply invariant_filter, Hinv.
Qed.

(** C5: on an empty wheel [select] throws [EmptyWheel] and [selectSafe]
    returns an empty result without throwing; on a non-empty wheel
    [selectSafe] returns exactly the element [select] returns, with the same
    resulting wheel. *)
Theorem selectSafe_agrees_with_select :
  (forall g, select (mkWheel [] g) = (inl EmptyWheel, mkWheel [] g) /\
             selectSafe (mkWheel [] g) = (inr None, mkWheel [] g)) /\
  (forall r rs g, exists e w',
     select (mkWheel (r :: rs) g) = (inr e, w') /\
     selectSafe (mkWheel (r :: rs) g) = (inr (Some e), w')).
Proof.
  split; [intro g; split; reflexivity|].
  intros r rs g. destruct (select_nonempty r rs g) as (e & w' & Hs & _ & _).
  exists e, w'. split; [exact Hs|].
  unfold selectSafe, bind. simpl m_regions. cbv iota. rewrite Hs. reflexivity.
Qed.

(** C6: on a non-empty wheel, [selectAndModifyWeight d] selects [e] as
    [select] does, adds [d] to the weight [y] of the region of [e], removes
    that region when [y + d <= 0] (size decreases by one) and otherwise keeps
    it in place with weight [y + d] (size unchanged), and returns [e]; on an
    empty wheel it behaves exactly as [select]. *)
Theorem selectAndModifyWeight_prunes_or_updates (d : Z) :
  (forall g, selectAndModifyWeight d (mkWheel [] g) = select (mkWheel [] g)) /\
  (forall r rs g, exists e w1 pre y post,
     select (mkWheel (r :: rs) g) = (inr e, w1) /\
     r :: rs = pre ++ mkRegion e y :: post /\
     ~ In e (map getElement pre) /\
     selectAndModifyWeight d (mkWheel (r :: rs) g) =
       (inr e, mkWheel (if y + d <=? 0 then pre ++ post
                        else pre ++ mkRegion e (y + d) :: post)
                       (m_randomEngine w1)) /\
     length (m_regions (snd (selectAndModifyWeight d (mkWheel (r :: rs) g)))) =
       (if y + d <=? 0 then length rs else S (length rs))).
Proof.
  split; [intro g; reflexivity|].
  intros r rs g. destruct (select_nonempty r rs g) as (e & w1 & Hs & Hin & Hw1).
  destruct (in_first_region e _ Hin) as (pre & [e' y] & post & Hrs & He & Hnin).
  simpl in He. subst e'.
  assert (Hres : selectAndModifyWeight d (mkWheel (r :: rs) g) =
       (inr e, mkWheel (if y + d <=? 0 then pre ++ post
                        else pre ++ mkRegion e (y + d) :: post)
                       (m_randomEngine w1))).
  { rewrite selectAndModifyWeight_unfold, Hs. unfold setRegions.
    rewrite Hw1, Hrs, modifyElementWeight_present by exact Hnin. reflexivity. }
  exists e, w1, pre, y, post. split; [exact Hs|]. split; [exact Hrs|].
  split; [exact Hnin|]. split; [exact Hres|].
  rewrite Hres. simpl m_regions.
  assert (Hlen : S (length rs) = (length pre + S (length post))%nat).
  { change (S (length rs)) with (length (r :: rs)). rewrite Hrs, length_app. reflexivity. }
  destruct (y + d <=? 0); rewrite length_app; simpl length; lia.
Qed.

(** C7: on a wheel with at least one region, [select] returns an element
    present in the wheel; the walk returns a present element for every drawn
    value, and when no inclusive running sum exceeds the drawn value it
    returns the element of the last region. *)
Theorem select_returns_present (r : WheelRegion) (rs : list WheelRegion) (g : Rng) :
  (exists e w', select (mkWheel (r :: rs) g) = (inr e, w') /\
                In e (map getElement (r :: rs))) /\
  (forall R, exists e, selectElementByWeight (r :: rs) R = Some e /\
                       In e (map getElement (r :: rs))) /\
  (forall R, (forall i, (i < length (r :: rs))%nat -> partialSumAfter i (r :: rs) <= R) ->
     selectElementByWeight (r :: rs) R = Some (getElement (last (r :: rs) r))).
Proof.
  split.
  { destruct (select_nonempty r rs g) as (e & w' & Hs & Hin & _). eauto. }
  split; [intro R; apply selectElementByWeight_in|].
  intros R Hall. unfold selectElementByWeight.
  rewrite selectLoop_none by (intros j Hj; specialize (Hall j Hj); lia).
  rewrite (back_last rs r r). reflexivity.
Qed.

(** C8: on a wheel with exactly one region, [select] returns its element and
    leaves the wheel, engine included, untouched (no draw); the general walk
    over that region returns the same element for every drawn value. *)
Theorem select_single_region (e : E) (x : Z) (g : Rng) :
  select (mkWheel [mkRegion e x] g) = (inr e, mkWheel [mkRegion e x] g) /\
  (forall R, selectElementByWeight [mkRegion e x] R = Some e).
Proof.
  split; [reflexivity|].
  intro R. unfold selectElementByWeight. simpl. destruct (R <? x); reflexivity.
Qed.

(** C9: two wheels with the same regions, reseeded with the same seed, give
    the same results (and the same final wheels) for any number of [select]
    calls, whatever their engine states were before reseeding. *)
Theorem seeded_select_sequences_equal (n : nat) (s : Z) (rs : list WheelRegion)
    (g1 g2 : Rng) :
  selectN n (snd (seedRandom s (mkWheel rs g1))) =
  selectN n (snd (seedRandom s (mkWheel rs g2))).
Proof. reflexivity. Qed.

(** C10: [select], [selectSafe], the queries [size] and [empty], and
    [seedRandom] leave the region sequence unchanged; [select] and
    [selectSafe] only change the engine state. *)
Theorem select_leaves_regions (w : RouletteWheel) (s : Z) :
  snd (select w) = mkWheel (m_regions w) (m_randomEngine (snd (select w))) /\
  snd (selectSafe w) = mkWheel (m_regions w) (m_randomEngine (snd (selectSafe w))) /\
  m_regions (snd (seedRandom s w)) = m_regions w /\
  snd (size w) = w /\ snd (empty w) = w.
Proof.
  assert (Hsel : snd (select w) = mkWheel (m_regions w) (m_randomEngine (snd (select w)))).
  { rewrite <- (select_regions w). destruct (snd (select w)). reflexivity. }
  split; [exact Hsel|]. split; [|repeat split].
  unfold selectSafe. destruct (m_regions w) as [|r rs] eqn:Hw.
  - simpl. rewrite <- Hw. destruct w. reflexivity.
  - unfold bind.
    destruct (select w) as [[err|e] w'] eqn:Hs; simpl in *; exact Hsel.
Qed.

(** ** Further properties of the code *)

(** [removeElement] of an absent element returns [false] and leaves the
    wheel unchanged. *)
Theorem removeElement_absent (w : RouletteWheel) (e : E)
    (Hnin : ~ In e (map getElement (m_regions w))) :
  removeElement e w = (inr false, w).
Proof.
  unfold removeElement, findElementIndex.
  rewrite findElementIndexFrom_absent by exact Hnin. reflexivity.
Qed.

(** [removeElement] of a present element, on a wheel with one region per
    element, returns [true], removes one region, makes the element absent and
    keeps the weight of every other element. *)
Theorem removeElement_present (w : RouletteWheel) (e : E)
    (Hnd : NoDup (map getElement (m_regions w)))
    (Hin : In e (map getElement (m_regions w))) :
  exists w', removeElement e w = (inr true, w') /\
    length (m_regions w') = pred (length (m_regions w)) /\
    findElementWeight e (m_regions w') = None /\
    (forall e', e' <> e -> findElementWeight e' (m_regions w') =
                           findElementWeight e' (m_regions w)) /\
    m_randomEngine w' = m_randomEngine w.
Proof.
  destruct (in_first_region e _ Hin) as (pre & r & post & Hw & Hr & Hnin).
  exists (setRegions w (pre ++ post)).
  split; [exact (removeElement_present_eq w e r pre post Hw Hr Hnin)|].
  simpl. rewrite Hw. split.
  { rewrite !length_app. simpl. lia. }
  split.
  { apply findElementWeight_absent. rewrite Hw, map_app in Hnd. simpl in Hnd.
    rewrite Hr in Hnd. rewrite map_app. exact (NoDup_remove_2 _ _ _ Hnd). }
  split; [|reflexivity].
  intros e' He'. symmetry. apply findElementWeight_skip. congruence.
Qed.

(** For integral weights, [removeInvalidRegions] returns the number of
    regions of weight [<= 0], leaves only regions of positive weight and does
    not touch the engine. *)
Theorem removeInvalidRegions_count (w : RouletteWheel) :
  fst (removeInvalidRegions w) =
    inr (length (filter (fun region => getWeight region <=? 0) (m_regions w))) /\
  Forall (fun region => 0 < getWeight region) (m_regions (snd (removeInvalidRegions w))) /\
  m_randomEngine (snd (removeInvalidRegions w)) = m_randomEngine w.
Proof.
  unfold removeInvalidRegions. simpl. split; [|split; [|reflexivity]].
  - f_equal. rewrite (length_filter_split (fun region => getWeight region <=? 0)). lia.
  - apply Forall_forall. intros r Hin. apply filter_In in Hin as [_ H].
    destruct (Z.leb_spec (getWeight r) 0); simpl in H; [discriminate|lia].
Qed.

(** On a wheel whose weights are all positive, [removeInvalidRegions] removes
    nothing: it returns [0] and the wheel is unchanged. *)
Theorem removeInvalidRegions_noop (w : RouletteWheel)
    (Hpos : Forall (fun region => 0 < getWeight region) (m_regions w)) :
  removeInvalidRegions w = (inr 0%nat, w).
Proof.
  unfold removeInvalidRegions.
  assert (Hf : filter (fun region => negb (getWeight region <=? 0)) (m_regions w) = m_regions w).
  { induction Hpos as [|r rs Hr Hrs IH]; simpl; [reflexivity|].
    replace (getWeight r <=? 0) with false by lia. simpl. now rewrite IH. }
  rewrite Hf, Nat.sub_diag. destruct w. reflexivity.
Qed.

(** For integral weights, [addRegion e x] with [x > 0] adds exactly [x] to
    the total weight; the size grows by one when [e] was absent and is
    unchanged when present. *)
Theorem addRegion_total_weight (w : RouletteWheel) (e : E) (x : Z) (Hx : 0 < x) :
  calculateTotalWeight (m_regions (snd (addRegion e x w))) =
    calculateTotalWeight (m_regions w) + x /\
  (In e (map getElement (m_regions w)) ->
     length (m_regions (snd (addRegion e x w))) = length (m_regions w)) /\
  (~ In e (map getElement (m_regions w)) ->
     length (m_regions (snd (addRegion e x w))) = S (length (m_regions w))).
Proof.
  destruct (in_dec E_eq_dec e (map getElement (m_regions w))) as [Hin|Hnin].
  - destruct (in_first_region e _ Hin) as (pre & [e' y] & post & Hw & Hr & Hnin).
    simpl in Hr. subst e'. rewrite (addRegion_present_eq w e x y pre post Hx Hw Hnin).
    simpl. rewrite Hw, !calculateTotalWeight_app, !calculateTotalWeight_cons.
    simpl. split; [lia|]. split; [|intro H; rewrite <- Hw in H; contradiction].
    intros _. rewrite !length_app. reflexivity.
  - rewrite (addRegion_absent_eq w e x Hx Hnin). simpl.
    rewrite calculateTotalWeight_app, calculateTotalWeight_cons, calculateTotalWeight_nil.
    simpl. split; [lia|]. split; [intro H; contradiction|].
    intros _. rewrite length_app. simpl. lia.
Qed.

(** Lookup after insertion: after [addRegion e x] with [x > 0] the weight of
    [e] is its former weight plus [x] ([x] when it was absent), and the weight
    of every other element is unchanged. *)
Theorem addRegion_lookup (w : RouletteWheel) (e : E) (x : Z) (Hx : 0 < x) :
  findElementWeight e (m_regions (snd (addRegion e x w))) =
    Some (match findElementWeight e (m_regions w) with
          | Some y => y + x
          | None => x
          end) /\
  (forall e', e' <> e ->
     findElementWeight e' (m_regions (snd (addRegion e x w))) =
     findElementWeight e' (m_regions w)).
Proof.
  destruct (in_dec E_eq_dec e (map getElement (m_regions w))) as [Hin|Hnin].
  - destruct (in_first_region e _ Hin) as (pre & [e' y] & post & Hw & Hr & Hnin).
    simpl in Hr. subst e'. rewrite (addRegion_present_eq w e x y pre post Hx Hw Hnin).
    simpl. rewrite Hw, !findElementWeight_middle by exact Hnin. split; [reflexivity|].
    intros e' He'. rewrite !findElementWeight_skip by (simpl; congruence). reflexivity.
  - rewrite (addRegion_absent_eq w e x Hx Hnin). simpl.
    rewrite (findElementWeight_absent e _ Hnin).
    split.
    + rewrite findElementWeight_middle by exact Hnin. reflexivity.
    + intros e' He'. rewrite findElementWeight_skip by (simpl; congruence).
      rewrite app_nil_r. reflexivity.
Qed.

(** [selectAndRemove] on a non-empty wheel with one region per element and
    positive weights returns a present element, which is absent afterwards,
    and shrinks the wheel by exactly that one element. *)
Theorem selectAndRemove_removes_selected (w : RouletteWheel)
    (Hinv : WheelInvariant (m_regions w)) (Hne : m_regions w <> []) :
  exists e w', selectAndRemove w = (inr e, w') /\
    In e (map getElement (m_regions w)) /\
    ~ In e (map getElement (m_regions w')) /\
    length (m_regions w') = pred (length (m_regions w)) /\
    Permutation (map getElement (m_regions w)) (e :: map getElement (m_regions w')).
Proof.
  destruct (selectAndRemove_step w Hinv Hne) as (e & w' & H1 & H2 & H3 & H4 & H5 & _).
  exists e, w'. auto.
Qed.

(** Calling [selectAndRemove] as many times as the wheel has regions (one
    region per element, positive weights) returns every element exactly once
    (a permutation of the elements), leaves the wheel empty, and a further
    call throws [EmptyWheel]. *)
Theorem selectAndRemove_drains_wheel (w : RouletteWheel)
    (Hinv : WheelInvariant (m_regions w)) :
  exists es w', selectAndRemoveN (length (m_regions w)) w = (inr es, w') /\
    Permutation es (map getElement (m_regions w)) /\
    m_regions w' = [] /\
    fst (selectAndRemove w') = inl EmptyWheel.
Proof.
  remember (length (m_regions w)) as n eqn:Hn. revert w Hinv Hn.
  induction n as [|n IH]; intros w Hinv Hn.
  - destruct w as [[|r rs] g]; [|discriminate]. exists [], (mkWheel [] g). auto.
  - assert (Hne : m_regions w <> []) by (intro H; rewrite H in Hn; discriminate).
    destruct (selectAndRemove_step w Hinv Hne)
      as (e & w1 & Hs & _ & _ & Hlen & Hperm & Hinv1).
    destruct (IH w1 Hinv1 ltac:(lia)) as (es & w' & Hrest & Hperm' & Hemp & Hfail).
    exists (e :: es), w'. split.
    + cbn [selectAndRemoveN]. unfold bind at 1. rewrite Hs.
      unfold bind. rewrite Hrest. reflexivity.
    + split; [|split; assumption].
      rewrite Hperm. apply perm_skip. exact Hperm'.
Qed.

(** With positive weights the total weight of a non-empty wheel is positive,
    so the draw range [[0, T - 1]] of [generateRandomWeight] is not empty, and
    for every value in that range the walk of [selectElementByWeight] stops
    inside its loop: the fallback to the last region is never taken. *)
Theorem selectLoop_covers_draw_range (r : WheelRegion) (rs : list WheelRegion)
    (Hpos : Forall (fun region => 0 < getWeight region) (r :: rs)) :
  0 < calculateTotalWeight (r :: rs) /\
  (forall R, 0 <= R <= calculateTotalWeight (r :: rs) - 1 ->
     exists e, selectLoop 0 (r :: rs) R = Some e).
Proof.
  split; [exact (calculateTotalWeight_pos r rs Hpos)|].
  intros R HR.
  destruct (interval_exists (r :: rs) R ltac:(lia)) as (i & Hi & Hb & Ha).
  destruct (nth_error (r :: rs) i) as [region|] eqn:Hnth.
  - exists (getElement region). apply (selectLoop_first _ 0 R i region Hnth); [lia|].
    intros j Hj. pose proof (partialSumAfter_le_before _ j i Hpos Hj). lia.
  - apply nth_error_None in Hnth. lia.
Qed.

(** For integral weights, on a non-empty wheel [selectAndModifyWeight d]
    changes the total weight by [d] when the selected region survives, and by
    minus its former weight [y] when it is pruned ([y + d <= 0]). *)
Theorem selectAndModifyWeight_total_weight (d : Z) (r : WheelRegion)
    (rs : list WheelRegion) (g : Rng) :
  exists e y w', selectAndModifyWeight d (mkWheel (r :: rs) g) = (inr e, w') /\
    findElementWeight e (r :: rs) = Some y /\
    calculateTotalWeight (m_regions w') =
      (if y + d <=? 0 then calculateTotalWeight (r :: rs) - y
       else calculateTotalWeight (r :: rs) + d).
Proof.
  destruct (select_nonempty r rs g) as (e & w1 & Hs & Hin & Hw1).
  destruct (in_first_region e _ Hin) as (pre & [e' y] & post & Hrs & He & Hnin).
  simpl in He. subst e'.
  exists e, y, (setRegions w1 (modifyElementWeight e d (m_regions w1))).
  rewrite selectAndModifyWeight_unfold, Hs. split; [reflexivity|].
  rewrite Hrs, findElementWeight_middle by exact Hnin. split; [reflexivity|].
  simpl. rewrite Hw1, Hrs, modifyElementWeight_present by exact Hnin.
  destruct (y + d <=? 0);
    rewrite !calculateTotalWeight_app, !calculateTotalWeight_cons; simpl; lia.
Qed.

(** For integral weights, the constructor from element-weight pairs with
    positive weights builds a wheel with one region per element and positive weights, whose total
    weight is the sum of all input weights (weights of repeated elements are
    combined), whose elements are exactly the input elements, and whose engine
    is the seeded one (construction draws nothing). *)
Theorem fromPairs_positive (pairs : list (E * Z)) (g : Rng)
    (Hpos : Forall (fun p => 0 < snd p) pairs) :
  exists w, fromPairs pairs g = (inr tt, w) /\
    WheelInvariant (m_regions w) /\
    calculateTotalWeight (m_regions w) = fold_right Z.add 0 (map snd pairs) /\
    m_randomEngine w = g /\
    (forall e, In e (map getElement (m_regions w)) <-> In e (map fst pairs)).
Proof using E_eq_dec.
  assert (H0 : WheelInvariant (m_regions (mkWheel [] g))) by (split; constructor).
  destruct (addPairs_positive pairs (mkWheel [] g) H0 Hpos) as (w & Hp & Hinv & Ht & Hg & Hel).
  exists w. unfold fromPairs. split; [exact Hp|]. split; [exact Hinv|].
  split; [rewrite Ht; reflexivity|]. split; [exact Hg|].
  intros e. rewrite Hel. simpl.
  split; [intros [[]|H]; exact H|intro H; right; exact H].
Qed.

(** The constructor from pairs throws [InvalidWeight] as soon as one input
    weight is [<= 0], wherever it occurs in the input. *)
Theorem fromPairs_nonpositive_throws (pairs : list (E * Z)) (g : Rng)
    (Hex : Exists (fun p => snd p <= 0) pairs) :
  fst (fromPairs pairs g) = inl InvalidWeight.
Proof using E_eq_dec. exact (addPairs_throws pairs (mkWheel [] g) Hex). Qed.

(** With distinct elements and positive weights, the constructor from pairs
    stores exactly the input pairs as regions, in input order. *)
Theorem fromPairs_distinct_keeps_order (pairs : list (E * Z)) (g : Rng)
    (Hpos : Forall (fun p => 0 < snd p) pairs) (Hnd : NoDup (map fst pairs)) :
  fromPairs pairs g =
    (inr tt, mkWheel (map (fun p => mkRegion (fst p) (snd p)) pairs) g).
Proof.
  unfold fromPairs. rewrite (addPairs_distinct pairs [] g Hpos Hnd); [reflexivity|].
  intros e _ [].
Qed.

(** [getSelectionProbability] returns [0.0] on an empty wheel and for an
    absent element; on a wheel with one region per element and positive
    weights it returns the percentage [100 * y / T] of the element's weight
    [y] in the total [T], which is then positive (the [T <= 0] guard is not
    taken). *)
Theorem getSelectionProbability_cases :
  (forall e g, getSelectionProbability e (mkWheel [] g) = double_zero) /\
  (forall e w, ~ In e (map getElement (m_regions w)) ->
     getSelectionProbability e w = double_zero) /\
  (forall e y pre post g,
     WheelInvariant (pre ++ mkRegion e y :: post) ->
     0 < calculateTotalWeight (pre ++ mkRegion e y :: post) /\
     getSelectionProbability e (mkWheel (pre ++ mkRegion e y :: post) g) =
       percentage y (calculateTotalWeight (pre ++ mkRegion e y :: post))).
Proof.
  split; [reflexivity|]. split.
  { intros e [[|r rs] g] Hnin; [reflexivity|].
    rewrite getSelectionProbability_nonempty by discriminate. cbn [m_regions] in *.
    rewrite findElementWeight_absent by exact Hnin. reflexivity. }
  intros e y pre post g [Hnd Hpos].
  assert (HT : 0 < calculateTotalWeight (pre ++ mkRegion e y :: post)).
  { apply Forall_app in Hpos as [Hpre Hpost]. inversion Hpost as [|? ? Hy Hpost']; subst.
    rewrite calculateTotalWeight_app, calculateTotalWeight_cons. cbn [getWeight] in *.
    pose proof (calculateTotalWeight_nonneg _ Hpre).
    pose proof (calculateTotalWeight_nonneg _ Hpost'). lia. }
  split; [exact HT|].
  rewrite getSelectionProbability_nonempty by (cbn [m_regions]; destruct pre; discriminate).
  cbn [m_regions]. rewrite findElementWeight_middle.
  - replace (calculateTotalWeight (pre ++ mkRegion e y :: post) <=? 0) with false by lia.
    reflexivity.
  - rewrite map_app in Hnd. simpl in Hnd. intro H. apply (NoDup_remove_2 _ _ _ Hnd).
    apply in_or_app. left. exact H.
Qed.

End RouletteWheel.

(** ** The floating-point instantiation [W = double].

    The template is also instantiated with [double] (its test suite and
    [WheelRegion]'s documentation name [float] and [double]).  This module
    embeds the two members whose behaviour on a NaN weight matters, with [W]
    as IEEE 754 binary64 ([SpecFloat.spec_float] at precision 53 and maximal
    exponent 1024): [weight <= 0] is [SFleb weight 0.0], false for NaN, and
    [a + b] is [SFadd 53 1024]. *)
Module Binary64Wheel.

Definition double : Type := spec_float.
Definition double_zero : double := S754_zero false.
Definition double_nan : double := S754_nan.
Definition double_add (a b : double) : double := SFadd 53 1024 a b.

Section Binary64Wheel.

Context {E : Type} (E_eq_dec : forall x y : E, {x = y} + {x <> y}).
Context {Rng : Type}.

(** [WheelRegion<E, double>] *)
Record WheelRegion : Type := mkRegion {
  getElement : E;
  getWeight : double
}.

(** [RouletteWheel<E, double>] *)
Record RouletteWheel : Type := mkWheel {
  m_regions : list WheelRegion;
  m_randomEngine : Rng
}.

(** [findElementIndex] *)
Fixpoint findElementIndexFrom (i : nat) (element : E) (rs : list WheelRegion)
    : option nat :=
  match rs with
  | [] => None
  | region :: rs' =>
      if E_eq_dec (getElement region) element then Some i
      else findElementIndexFrom (S i) element rs'
  end.

Definition findElementIndex (element : E) (rs : list WheelRegion) : option nat :=
  findElementIndexFrom O element rs.

(** [combineWeightAtIndex] *)
Definition combineWeightAtIndex (index : nat) (additionalWeight : double)
    (rs : list WheelRegion) : list WheelRegion :=
  update_at index
    (fun region => mkRegion (getElement region)
                     (double_add (getWeight region) additionalWeight)) rs.

(** [addRegion]: the guard is [weight <= 0]. *)
Definition addRegion (element : E) (weight : double) (w : RouletteWheel)
    : (WheelError + unit) * RouletteWheel :=
  if SFleb weight double_zero then (inl InvalidWeight, w)
  else match findElementIndex element (m_regions w) with
       | Some i => (inr tt, mkWheel (combineWeightAtIndex i weight (m_regions w))
                                    (m_randomEngine w))
       | None => (inr tt, mkWheel (m_regions w ++ [mkRegion element weight])
                                  (m_randomEngine w))
       end.

(** [removeInvalidRegions]: [erase(remove_if(..., weight <= 0))]. *)
Definition removeInvalidRegions (w : RouletteWheel) : (WheelError + nat) * RouletteWheel :=
  let originalSize := length (m_regions w) in
  let rs' := filter (fun region => negb (SFleb (getWeight region) double_zero))
                    (m_regions w) in
  (inr (originalSize - length rs')%nat, mkWheel rs' (m_randomEngine w)).

(** One region per element, every weight strictly positive ([0.0 < weight]). *)
Definition WheelInvariant (rs : list WheelRegion) : Prop :=
  NoDup (map getElement rs) /\
  Forall (fun region => SFltb double_zero (getWeight region) = true) rs.

End Binary64Wheel.

(** C4 (for [W = double]): on an empty wheel, which satisfies the invariant,
    [addRegion("x", NaN)] does not throw, since [NaN <= 0] is false, and
    stores a region of weight NaN, which is not strictly positive, so the
    invariant is broken; [removeInvalidRegions] then removes nothing, since
    its [weight <= 0] test is false for NaN too. *)
Theorem addRegion_nan_breaks_invariant (g : Z) :
  WheelInvariant (m_regions (mkWheel (E := string) [] g)) /\
  (addRegion string_dec "x"%string double_nan (mkWheel [] g) =
     (inr tt, mkWheel [mkRegion "x"%string double_nan] g)) /\
  ~ WheelInvariant [mkRegion "x"%string double_nan] /\
  (removeInvalidRegions (mkWheel [mkRegion "x"%string double_nan] g) =
     (inr 0%nat, mkWheel [mkRegion "x"%string double_nan] g)).
Proof.
  split; [split; constructor|].
  split; [reflexivity|].
  split; [|reflexivity].
  intros [_ Hpos]. inversion Hpos as [|r rs Hr _]. discriminate Hr.
Qed.

End Binary64Wheel.

(** ** A concrete instantiation, for evaluating the model. *)

(** A toy engine: the state is a counter, and the draw of
    [uniform_int_distribution(a, b)] reduces it into [[a, b]]. *)
Definition toy_uniform (a b : Z) (g : Z) : Z * Z := (a + g mod (b - a + 1), g + 7).
Definition toy_seed (s : Z) : Z := s.

(** C1: at [R = 0] the walk selects the first region, although no region
    satisfies the strict test [partialSum_before < R < partialSum_after]. *)
Lemma selectElementByWeight_strict_lower_bound_fails :
  selectElementByWeight [mkRegion 1%nat 1; mkRegion 2%nat 1] 0 = Some 1%nat /\
  ~ (exists i, (i < 2)%nat /\
       partialSumBefore i [mkRegion 1%nat 1; mkRegion 2%nat 1] < 0 <
       partialSumAfter i [mkRegion 1%nat 1; mkRegion 2%nat 1]).
Proof.
  split; [reflexivity|].
  intros (i & Hi & [H1 H2]). destruct i as [|[|i]].
  - exact (Z.lt_irrefl 0 H1).
  - discriminate H1.
  - lia.
Qed.

(** Evaluations of the model on the toy engine. *)

(** Total weight 5, the toy draw yields [4]: the running sums are [2] then
    [5], and [5 > 4] selects the second region. *)
Example select_toy_two_regions :
  select toy_uniform (mkWheel [mkRegion 1%nat 2; mkRegion 2%nat 3] 4) =
  (inr 2%nat, mkWheel [mkRegion 1%nat 2; mkRegion 2%nat 3] 11).
Proof. reflexivity. Qed.

(** [addRegion("x"%string, 5); addRegion("x"%string, 3)] on an empty wheel. *)
Example addRegion_accumulates_x :
  snd (bind (addRegion string_dec "x"%string 5) (fun _ => addRegion string_dec "x"%string 3)
         (mkWheel [] 0)) = mkWheel [mkRegion "x"%string 8] 0.
Proof. reflexivity. Qed.

(** [selectAndModifyWeight(-5)] on a single region of weight 5 prunes it; on
    weight 10 it keeps weight 5. *)
Example selectAndModifyWeight_single_x :
  selectAndModifyWeight string_dec toy_uniform (-5) (mkWheel [mkRegion "x"%string 5] 0)
    = (inr "x"%string, mkWheel [] 0) /\
  selectAndModifyWeight string_dec toy_uniform (-5) (mkWheel [mkRegion "x"%string 10] 0)
    = (inr "x"%string, mkWheel [mkRegion "x"%string 5] 0).
Proof. split; reflexivity. Qed.

(** C1 witness: drawn value [1] on weights [1, 2] lies in [[1, 3)], the
    interval of the second region. *)
Lemma selectElementByWeight_partition_witness :
  selectElementByWeight [mkRegion 1%nat 1; mkRegion 2%nat 2] 1 = Some 2%nat.
Proof.
  refine (proj2 (proj2 (selectElementByWeight_partition
            [mkRegion 1%nat 1; mkRegion 2%nat 2] 1 _ _)) 1%nat (mkRegion 2%nat 2) _ _).
  - repeat constructor.
  - split; [lia|reflexivity].
  - reflexivity.
  - split; [vm_compute; discriminate|reflexivity].
Defined.

(** C2 witness: a zero weight is refused and the wheel is unchanged. *)
Lemma addRegion_nonpositive_unchanged_witness :
  addRegion Nat.eq_dec 7%nat 0 (mkWheel [mkRegion 1%nat 5] 0) =
  (inl InvalidWeight, mkWheel [mkRegion 1%nat 5] 0).
Proof. apply (addRegion_nonpositive_unchanged Nat.eq_dec _ 7%nat 0). lia. Defined.

(** C3 witness: [addRegion("x"%string, 3)] on the region [("x"%string, 5)] gives weight 8. *)
Lemma addRegion_positive_combine_or_append_witness :
  addRegion string_dec "x"%string 3 (mkWheel [mkRegion "x"%string 5] 0) =
  (inr tt, mkWheel [mkRegion "x"%string 8] 0).
Proof.
  exact (proj1 (addRegion_positive_combine_or_append string_dec
                  (mkWheel [mkRegion "x"%string 5] 0) "x"%string 3 ltac:(lia))
               [] 5 [] eq_refl (fun H => H)).
Defined.

(** Witness of [wheel_invariant_preserved]: [selectAndRemove] on a wheel
    with distinct elements and positive weights. *)
Lemma wheel_invariant_preserved_witness :
  WheelInvariant (m_regions (snd (selectAndRemove Nat.eq_dec toy_uniform
    (mkWheel [mkRegion 1%nat 2; mkRegion 2%nat 3] 4)))).
Proof.
  refine (proj1 (proj2 (proj2 (proj2 (proj2
    (wheel_invariant_preserved Nat.eq_dec toy_uniform
       (mkWheel [mkRegion 1%nat 2; mkRegion 2%nat 3] 4) _)))))).
  split.
  - constructor; [simpl; intros [H|[]]; discriminate H|].
    constructor; [intros []|constructor].
  - repeat constructor.
Defined.

(** Witnesses of the further properties, on concrete wheels. *)

Lemma removeElement_absent_witness :
  removeElement Nat.eq_dec 3%nat (mkWheel [mkRegion 1%nat 2] 0) =
  (inr false, mkWheel [mkRegion 1%nat 2] 0).
Proof.
  apply removeElement_absent. simpl. intros [H|[]]. discriminate H.
Defined.

Lemma removeElement_present_witness :
  exists w', removeElement Nat.eq_dec 2%nat
               (mkWheel [mkRegion 1%nat 2; mkRegion 2%nat 3] 0) = (inr true, w') /\
    length (m_regions w') = 1%nat /\
    findElementWeight Nat.eq_dec 2%nat (m_regions w') = None /\
    (forall e', e' <> 2%nat -> findElementWeight Nat.eq_dec e' (m_regions w') =
       findElementWeight Nat.eq_dec e' [mkRegion 1%nat 2; mkRegion 2%nat 3]) /\
    m_randomEngine w' = 0.
Proof.
  apply (removeElement_present Nat.eq_dec (mkWheel [mkRegion 1%nat 2; mkRegion 2%nat 3] 0) 2%nat).
  - simpl. constructor; [intros [H|[]]; discriminate H|]. constructor; [intros []|constructor].
  - simpl. right. left. reflexivity.
Defined.

Lemma removeInvalidRegions_noop_witness :
  removeInvalidRegions (mkWheel [mkRegion 1%nat 2; mkRegion 2%nat 3] 0) =
  (inr 0%nat, mkWheel [mkRegion 1%nat 2; mkRegion 2%nat 3] 0).
Proof. apply removeInvalidRegions_noop. repeat constructor. Defined.

Lemma addRegion_total_weight_witness :
  calculateTotalWeight (m_regions (snd (addRegion Nat.eq_dec 1%nat 4
    (mkWheel [mkRegion 1%nat 2; mkRegion 2%nat 3] 0)))) = 5 + 4.
Proof.
  exact (proj1 (addRegion_total_weight Nat.eq_dec
                  (mkWheel [mkRegion 1%nat 2; mkRegion 2%nat 3] 0) 1%nat 4 ltac:(lia))).
Defined.

Lemma addRegion_lookup_witness :
  findElementWeight Nat.eq_dec 2%nat (m_regions (snd (addRegion Nat.eq_dec 2%nat 4
    (mkWheel [mkRegion 1%nat 2; mkRegion 2%nat 3] 0)))) = Some 7.
Proof.
  exact (proj1 (addRegion_lookup Nat.eq_dec
                  (mkWheel [mkRegion 1%nat 2; mkRegion 2%nat 3] 0) 2%nat 4 ltac:(lia))).
Defined.

Lemma selectAndRemove_removes_selected_witness :
  exists e w', selectAndRemove Nat.eq_dec toy_uniform
                 (mkWheel [mkRegion 1%nat 2; mkRegion 2%nat 3] 4) = (inr e, w') /\
    In e (map getElement [mkRegion 1%nat 2; mkRegion 2%nat 3]) /\
    ~ In e (map getElement (m_regions w')) /\
    length (m_regions w') = 1%nat /\
    Permutation (map getElement [mkRegion 1%nat 2; mkRegion 2%nat 3])
                (e :: map getElement (m_regions w')).
Proof.
  apply (selectAndRemove_removes_selected Nat.eq_dec toy_uniform
           (mkWheel [mkRegion 1%nat 2; mkRegion 2%nat 3] 4)).
  - split.
    + constructor; [simpl; intros [H|[]]; discriminate H|].
      constructor; [intros []|constructor].
    + repeat constructor.
  - discriminate.
Defined.

Lemma selectAndRemove_drains_wheel_witness :
  exists es w', selectAndRemoveN Nat.eq_dec toy_uniform 2
                  (mkWheel [mkRegion 1%nat 2; mkRegion 2%nat 3] 4) = (inr es, w') /\
    Permutation es [1%nat; 2%nat] /\ m_regions w' = [] /\
    fst (selectAndRemove Nat.eq_dec toy_uniform w') = inl EmptyWheel.
Proof.
  apply (selectAndRemove_drains_wheel Nat.eq_dec toy_uniform
           (mkWheel [mkRegion 1%nat 2; mkRegion 2%nat 3] 4)).
  split.
  - constructor; [simpl; intros [H|[]]; discriminate H|].
    constructor; [intros []|constructor].
  - repeat constructor.
Defined.

Lemma selectLoop_covers_draw_range_witness :
  0 < calculateTotalWeight [mkRegion 1%nat 2; mkRegion 2%nat 3] /\
  (forall R, 0 <= R <= calculateTotalWeight [mkRegion 1%nat 2; mkRegion 2%nat 3] - 1 ->
     exists e, selectLoop 0 [mkRegion 1%nat 2; mkRegion 2%nat 3] R = Some e).
Proof.
  apply selectLoop_covers_draw_range. repeat constructor.
Defined.

Lemma fromPairs_positive_witness :
  exists w, fromPairs Nat.eq_dec [(1%nat, 2); (2%nat, 3); (1%nat, 4)] 0 = (inr tt, w) /\
    WheelInvariant (m_regions w) /\
    calculateTotalWeight (m_regions w) = 9 /\
    m_randomEngine w = 0 /\
    (forall e, In e (map getElement (m_regions w)) <->
               In e (map fst [(1%nat, 2); (2%nat, 3); (1%nat, 4)])).
Proof.
  apply fromPairs_positive. repeat constructor.
Defined.

Lemma fromPairs_nonpositive_throws_witness :
  fst (fromPairs Nat.eq_dec [(1%nat, 2); (2%nat, 0); (3%nat, 4)] (0 : Z)) = inl InvalidWeight.
Proof.
  apply fromPairs_nonpositive_throws. apply Exists_cons_tl, Exists_cons_hd. simpl. lia.
Defined.

Lemma fromPairs_distinct_keeps_order_witness :
  fromPairs Nat.eq_dec [(1%nat, 2); (2%nat, 3)] (0 : Z) =
    (inr tt, mkWheel [mkRegion 1%nat 2; mkRegion 2%nat 3] 0).
Proof.
  refine (fromPairs_distinct_keeps_order Nat.eq_dec [(1%nat, 2); (2%nat, 3)] 0 _ _).
  - repeat constructor.
  - constructor; [simpl; intros [H|[]]; discriminate H|].
    constructor; [intros []|constructor].
Defined.
